(** * Scorelist routes: a shallow embedding of [app/routes/scorelist_routes.js]

    The five Express handlers of the scorelists resource are embedded as
    functions over an explicit store.  Promise chains become a state and
    error monad, rejected promises and thrown exceptions become [Rejected],
    the [.catch(next)] at the end of every chain becomes [catch_next].

    Numbers are modelled by [Z]: the only arithmetic in the file is the
    comparator [a.score - b.score] and the counter [i + 1]. *)

From stdpp Require Import gmap strings list sorting.
From Stdlib Require Import ZArith Lia.

Local Open Scope Z_scope.

(** ** Values and documents *)

(** JSON values carried by the fields of a request payload: primitives,
    objects and arrays, nested to any depth. *)
#[warnings="-register-all"]
Inductive jsval :=
  | JStr (s : string)
  | JNum (n : Z)
  | JBool (b : bool)
  | JNull
  | JObj (o : gmap string jsval)
  | JArr (items : list jsval).

(** [v === ''] *)
#[global] Instance jsval_blank_dec (v : jsval) : Decision (v = JStr "").
Proof.
  destruct v as [s| | | | |]; try (right; discriminate).
  destruct (decide (s = "")) as [->|Hne]; [by left | right; congruence].
Defined.

(** A plain JS object used as a dictionary ([req.body.scorelist]). *)
Abbreviation payload := (gmap string jsval).

(** Modelled from the spec: the Mongoose schema of [app/models/scorelist]
    (section 3, Score Record): an id assigned by the store, the owner, a
    numeric score and other caller-supplied attributes. *)
Record scorelist := mkScorelist {
  _id : nat;
  owner : string;
  score : Z;
  fields : payload
}.

(** The plain object made by [scorelist.toObject()]; [placement] is the
    property the INDEX handler adds, absent until it is assigned. *)
Record pojo := Pojo {
  source : scorelist;
  placement : option Z
}.

Definition toObject (d : scorelist) : pojo :=
  {| source := d; placement := None |}.

(** [o.placement = j] *)
Definition set_placement (j : Z) (o : pojo) : pojo :=
  {| source := source o; placement := Some j |}.

(** ** Errors and completions *)

Inductive error :=
  | TypeError                 (* property access on [undefined] *)
  | DocumentNotFoundError     (* thrown by [handle404] *)
  | OwnershipError            (* thrown by [requireOwnership] *)
  | ValidationError           (* the schema refuses a document *)
  | StoreError (msg : string) (* any other rejection of a store call *).

(** How a synchronous block or a promise ends. *)
Inductive completion (A : Type) :=
  | Fulfilled (a : A)
  | Rejected (e : error).
Arguments Fulfilled {A} a.
Arguments Rejected {A} e.

(** ** Array primitives used by the INDEX handler *)

Section Arrays.
Context {A : Type}.

(** [arr.splice(start, count)]: the removed elements are returned, the
    array keeps the others. *)
Definition splice (start count : nat) (arr : list A) : list A * list A :=
  (take count (drop start arr), take start arr ++ drop (start + count) arr).

(** [Array.prototype.sort(comparefn)] is stable (ECMAScript 2019), so for a
    consistent comparator its result is the stable sorted arrangement;
    insertion from the right computes it.  [x] is placed before the first
    [y] that does not have to precede it. *)
Fixpoint sort_insert (comparefn : A → A → Z) (x : A) (arr : list A) : list A :=
  match arr with
  | [] => [x]
  | y :: ys =>
      if Z.leb (comparefn x y) 0 then x :: y :: ys
      else y :: sort_insert comparefn x ys
  end.

Definition sort (comparefn : A → A → Z) (arr : list A) : list A :=
  foldr (sort_insert comparefn) [] arr.
End Arrays.

(** [function (a, b) { return a.score - b.score }] *)
Definition by_score (a b : pojo) : Z := score (source a) - score (source b).

(** [for (let i = 0; i < 10; i++) { let j = i + 1; scorelists[i].placement = j }]
    with [todo] the number of iterations left.  [scorelists[i]] is
    [undefined] beyond the end of the array, and assigning a property of
    [undefined] throws. *)
Fixpoint placement_loop (todo : nat) (i : nat) (scorelists : list pojo)
  : completion (list pojo) :=
  match todo with
  | O => Fulfilled scorelists
  | S todo' =>
      let j := Z.of_nat i + 1 in
      match scorelists !! i with
      | None => Rejected TypeError
      | Some o => placement_loop todo' (S i) (<[i := set_placement j o]> scorelists)
      end
  end.

(** The body of the second [.then] of the INDEX handler, up to the response:
    truncate, sort, assign placements. *)
Definition rank (scorelists : list pojo) : completion (list pojo) :=
  let scorelists :=
    if Z.ltb 10 (Z.of_nat (length scorelists))
    then (splice 0 10 scorelists).1
    else scorelists in
  let scorelists := sort by_score scorelists in
  placement_loop 10 0 scorelists.

(** ** The persistence store

    The Mongoose model [Scorelist] is an external collaborator.  Its state is
    the collection in store-return order; [calls] records every call issued
    to it, and [rejects] says which calls the store rejects (a malformed id,
    a lost connection, ...). *)

Inductive store_call :=
  | Find
  | FindById (id : nat)
  | Create (doc : payload)
  | UpdateOne (id : nat) (patch : payload)
  | DeleteOne (id : nat).

Record user := User { user_id : string }.

Record store := Store {
  docs : list scorelist;
  calls : list store_call;
  next_id : nat;
  rejects : store_call → option error;
  users : gmap string user      (* bearer token ↦ user, for passport *)
}.

Definition with_docs (ds : list scorelist) (s : store) : store :=
  {| docs := ds; calls := calls s; next_id := next_id s;
     rejects := rejects s; users := users s |}.

Definition issue (c : store_call) (s : store) : store :=
  {| docs := docs s; calls := calls s ++ [c]; next_id := next_id s;
     rejects := rejects s; users := users s |}.

Definition bump_id (s : store) : store :=
  {| docs := docs s; calls := calls s; next_id := S (next_id s);
     rejects := rejects s; users := users s |}.

(** Promise chains and the synchronous code around them: a state and error
    monad over the store. *)
Definition io (A : Type) : Type := store → store * completion A.

Definition ret {A} (a : A) : io A := λ s, (s, Fulfilled a).

(** [.then(k)]: a rejection skips [k]. *)
Definition bind {A B} (m : io A) (k : A → io B) : io B :=
  λ s, match m s with
       | (s', Fulfilled a) => k a s'
       | (s', Rejected e) => (s', Rejected e)
       end.

(** A synchronous step that may throw. *)
Definition lift {A} (c : completion A) : io A := λ s, (s, c).

(** A promise that is started but not returned to the chain: its effect
    takes place, its completion is dropped.  The chain does not wait for
    it; the model lets the effect take place at once, so it says nothing
    about when the effect becomes visible to a later request. *)
Definition detached {A} (m : io A) : io unit :=
  λ s, ((m s).1, Fulfilled tt).

Notation "'let*' x ':=' m 'in' k" := (bind m (λ x, k))
  (at level 10, x name, m at level 100, k at level 200, only parsing).

(** A call reaches the store, which rejects it or performs it. *)
Definition query {A} (c : store_call) (perform : io A) : io A :=
  λ s, let s := issue c s in
       match rejects s c with
       | Some e => (s, Rejected e)
       | None => perform s
       end.

Definition find_doc (id : nat) (ds : list scorelist) : option scorelist :=
  List.find (λ d, Nat.eqb (_id d) id) ds.

(** Modelled from the spec: the schema of [app/models/scorelist] applied to a
    new document: an owner and a numeric score are required, the other
    attributes are kept as they come. *)
Definition cast (id : nat) (p : payload) : option scorelist :=
  match p !! "owner", p !! "score" with
  | Some (JStr o), Some (JNum n) =>
      Some {| _id := id; owner := o; score := n;
              fields := delete "owner" (delete "score" p) |}
  | _, _ => None
  end.

(** [$set], [$inc], ...: a key of an update that names an operator. *)
Definition is_operator (key : string) : bool := String.prefix "$" key.

(** The fields an update sets.  Mongoose reads a plain top-level key of the
    update as a field to set and reads the object under [$set] the same way;
    the other update operators are not modelled. *)
Definition set_fields (patch : payload) : payload :=
  filter (λ kv, is_operator kv.1 = false) patch
  ∪ match patch !! "$set" with
    | Some (JObj o) => o
    | _ => ∅
    end.

(** What [updateOne(patch)] does to the stored document: the fields the
    patch sets replace the stored ones, [owner] included when the patch sets
    it. *)
Definition apply_update (patch : payload) (d : scorelist) : scorelist :=
  let changes := set_fields patch in
  {| _id := _id d;
     owner := match changes !! "owner" with Some (JStr o) => o | _ => owner d end;
     score := match changes !! "score" with Some (JNum n) => n | _ => score d end;
     fields := delete "owner" (delete "score" changes) ∪ fields d |}.

Module Scorelist.
Definition find : io (list scorelist) :=
  query Find (λ s, (s, Fulfilled (docs s))).

Definition findById (id : nat) : io (option scorelist) :=
  query (FindById id) (λ s, (s, Fulfilled (find_doc id (docs s)))).

Definition create (p : payload) : io scorelist :=
  query (Create p) (λ s,
    match cast (next_id s) p with
    | None => (s, Rejected ValidationError)
    | Some d => (bump_id (with_docs (docs s ++ [d]) s), Fulfilled d)
    end).

Definition updateOne (d : scorelist) (patch : payload) : io unit :=
  query (UpdateOne (_id d) patch) (λ s,
    (with_docs
       (map (λ x, if Nat.eqb (_id x) (_id d) then apply_update patch x else x)
            (docs s)) s,
     Fulfilled tt)).

Definition deleteOne (d : scorelist) : io unit :=
  query (DeleteOne (_id d)) (λ s,
    (with_docs (List.filter (λ x, negb (Nat.eqb (_id x) (_id d))) (docs s)) s,
     Fulfilled tt)).
End Scorelist.

(** ** Requests, responses and middleware *)

Record request := Request {
  bearer : option string;          (* the Authorization header's token *)
  req_user : option user;          (* [req.user], set by passport *)
  params_id : nat;                 (* [req.params.id] *)
  body : gmap string payload       (* [req.body]: envelope key ↦ object;
                                      an envelope that is a primitive or an
                                      array is not modelled *)
}.

Definition with_user (u : user) (req : request) : request :=
  {| bearer := bearer req; req_user := Some u;
     params_id := params_id req; body := body req |}.

Definition with_body (b : gmap string payload) (req : request) : request :=
  {| bearer := bearer req; req_user := req_user req;
     params_id := params_id req; body := b |}.

Inductive json :=
  | NoBody
  | One (scorelist : pojo)           (* [{ scorelist: ... }] *)
  | Many (scorelists : list pojo)    (* [{ scorelists: [...] }] *)
  | Unauthorized.

Inductive outcome :=
  | Responded (status : Z) (b : json)
  | PassedToNext (e : error)         (* [next(err)]: the error handler *)
  | FellThrough.                     (* no route answered *)

(** A middleware either hands the request on ([next()]) or ends it. *)
Inductive flow :=
  | Next (req : request)
  | Finished (o : outcome).

Definition middleware : Type := request → store → store * flow.

(** The [.catch(next)] that ends every chain.  Express itself passes an
    exception thrown synchronously by a handler to [next] as well, so the
    synchronous prefix of a handler lives in the same chain. *)
Definition catch_next (chain : io outcome) : store → store * flow :=
  λ s, match chain s with
       | (s', Fulfilled o) => (s', Finished o)
       | (s', Rejected e) => (s', Finished (PassedToNext e))
       end.

Fixpoint dispatch (chain : list middleware) (req : request) (s : store)
  : store * outcome :=
  match chain with
  | [] => (s, FellThrough)
  | m :: rest =>
      match m req s with
      | (s', Next req') => dispatch rest req' s'
      | (s', Finished o) => (s', o)
      end
  end.

(** [passport.authenticate('bearer', { session: false })]: an unknown or
    missing token is answered 401, a known one sets [req.user]. *)
Definition authenticate (req : request) (s : store) : option user :=
  match bearer req with
  | Some t => users s !! t
  | None => None
  end.

Definition requireToken : middleware :=
  λ req s, match authenticate req s with
           | Some u => (s, Next (with_user u req))
           | None => (s, Finished (Responded 401 Unauthorized))
           end.

(** Modelled from the spec: [lib/remove_blank_fields] (section 4.3 and the
    comment above its import): every top-level field of an object of
    [req.body] whose value is the empty string is removed. *)
Definition removeBlanks : middleware :=
  λ req s,
    (s, Next (with_body (filter (λ kv, kv.2 ≠ JStr "") <$> body req) req)).

(** Modelled from the spec: [handle404] of [lib/custom_errors] (section 4.2,
    ensureExists): fails when the looked-up record is absent. *)
Definition handle404 (record : option scorelist) : completion scorelist :=
  match record with
  | None => Rejected DocumentNotFoundError
  | Some r => Fulfilled r
  end.

(** Modelled from the spec: [requireOwnership] of [lib/custom_errors]
    (section 4.2, ensureOwner): fails when [record.owner != caller.id]. *)
Definition requireOwnership (req : request) (resource : scorelist)
  : completion unit :=
  match req_user req with
  | None => Rejected TypeError
  | Some u =>
      if decide (owner resource = user_id u) then Fulfilled tt
      else Rejected OwnershipError
  end.

(** ** The handlers *)

(** INDEX, [GET /scorelists] *)
Definition index : middleware :=
  λ req, catch_next (
    let* scorelists := Scorelist.find in
    let* scorelists := ret (map toObject scorelists) in
    let* scorelists := lift (rank scorelists) in
    ret (Responded 200 (Many scorelists))).

(** SHOW, [GET /scorelists/:id] *)
Definition show : middleware :=
  λ req, catch_next (
    let* found := Scorelist.findById (params_id req) in
    let* scorelist := lift (handle404 found) in
    ret (Responded 200 (One (toObject scorelist)))).

(** [req.body.scorelist.owner = req.user.id]; the result is the object
    [req.body.scorelist] after the assignment. *)
Definition assign_owner (req : request) : completion payload :=
  match body req !! "scorelist", req_user req with
  | Some scorelist, Some u => Fulfilled (<["owner" := JStr (user_id u)]> scorelist)
  | _, _ => Rejected TypeError
  end.

(** CREATE, [POST /scorelists]; the [console.log('hello')] between the
    assignment and the call only writes to the process output. *)
Definition create : middleware :=
  λ req, catch_next (
    let* scorelist := lift (assign_owner req) in
    let* scorelist := Scorelist.create scorelist in
    ret (Responded 201 (One (toObject scorelist)))).

(** [delete req.body.scorelist.owner]; the result is the object
    [req.body.scorelist] after the deletion. *)
Definition delete_owner (req : request) : completion payload :=
  match body req !! "scorelist" with
  | Some scorelist => Fulfilled (delete "owner" scorelist)
  | None => Rejected TypeError
  end.

(** UPDATE, [PATCH /scorelists/:id] *)
Definition update : middleware :=
  λ req, catch_next (
    let* patch := lift (delete_owner req) in
    let* found := Scorelist.findById (params_id req) in
    let* scorelist := lift (handle404 found) in
    let* _ := lift (requireOwnership req scorelist) in
    let* _ := Scorelist.updateOne scorelist patch in
    ret (Responded 204 NoBody)).

(** DESTROY, [DELETE /scorelists/:id]; the promise of [deleteOne] is not
    returned from its [.then]. *)
Definition destroy : middleware :=
  λ req, catch_next (
    let* found := Scorelist.findById (params_id req) in
    let* scorelist := lift (handle404 found) in
    let* _ := lift (requireOwnership req scorelist) in
    let* _ := detached (Scorelist.deleteOne scorelist) in
    ret (Responded 204 NoBody)).

(** ** The router *)

Inductive method := GET | POST | PATCH | DELETE.
Inductive path := Scorelists | ScorelistsId.   (* /scorelists, /scorelists/:id *)

#[global] Instance method_eq_dec : EqDecision method.
Proof. solve_decision. Defined.
#[global] Instance path_eq_dec : EqDecision path.
Proof. solve_decision. Defined.

Definition router : list (method * path * list middleware) :=
  [ (GET, Scorelists, [index]);
    (GET, ScorelistsId, [requireToken; show]);
    (POST, Scorelists, [requireToken; create]);
    (PATCH, ScorelistsId, [requireToken; removeBlanks; update]);
    (DELETE, ScorelistsId, [requireToken; destroy]) ].

(** The first registered route that matches serves the request. *)
Definition serve (m : method) (p : path) (req : request) (s : store)
  : store * outcome :=
  match List.find (λ r, bool_decide (r.1 = (m, p))) router with
  | Some r => dispatch r.2 req s
  | None => (s, FellThrough)
  end.

(** A call that writes to the collection. *)
Definition is_write (c : store_call) : bool :=
  match c with
  | Create _ | UpdateOne _ _ | DeleteOne _ => true
  | Find | FindById _ => false
  end.

Definition writes (s : store) : list store_call := List.filter is_write (calls s).

(** ** Orders on the leaderboard *)

(** Ascending by score, ties allowed. *)
Definition score_le (a b : pojo) : Prop := score (source a) ≤ score (source b).
(** Strictly ascending by score. *)
Definition score_lt (a b : pojo) : Prop := score (source a) < score (source b).

(** ** Sample stores and requests *)

Definition entry (id : nat) (who : string) (n : Z) : scorelist :=
  {| _id := id; owner := who; score := n; fields := ∅ |}.

(** A store that rejects nothing, with two registered users. *)
Definition healthy (ds : list scorelist) : store :=
  {| docs := ds; calls := []; next_id := length ds;
     rejects := λ _, None;
     users := {[ "token-ann" := User "ann"; "token-bob" := User "bob" ]} |}.

(** The same store, except that every [deleteOne] is rejected. *)
Definition failing_delete (ds : list scorelist) : store :=
  {| docs := ds; calls := []; next_id := length ds;
     rejects := λ c, match c with
                     | DeleteOne _ => Some (StoreError "connection lost")
                     | _ => None
                     end;
     users := {[ "token-ann" := User "ann"; "token-bob" := User "bob" ]} |}.

(** The same store, except that every [create] is rejected. *)
Definition failing_create (ds : list scorelist) : store :=
  {| docs := ds; calls := []; next_id := length ds;
     rejects := λ c, match c with
                     | Create _ => Some (StoreError "connection lost")
                     | _ => None
                     end;
     users := {[ "token-ann" := User "ann"; "token-bob" := User "bob" ]} |}.

(** Eleven records in descending-score order: 11, 10, ..., 1. *)
Definition eleven : list scorelist :=
  (λ i : nat, entry i "ann" (11 - Z.of_nat i)) <$> seq 0 11.

(** Three records with distinct scores. *)
Definition three : list scorelist :=
  [entry 0 "ann" 30; entry 1 "bob" 10; entry 2 "ann" 20].

Definition anonymous : request :=
  {| bearer := None; req_user := None; params_id := 0; body := ∅ |}.

(** A request carrying [token], addressed to [id], with body [b]. *)
Definition signed (token : string) (id : nat) (b : gmap string payload) : request :=
  {| bearer := Some token; req_user := None; params_id := id; body := b |}.

(** [{ scorelist: { owner: 'bob', score: 5, title: 'x' } }] *)
Definition forged : gmap string payload :=
  {[ "scorelist" := {[ "owner" := JStr "bob"; "score" := JNum 5; "title" := JStr "x" ]} ]}.

(** [{ scorelist: { $set: { owner: 'bob' } } }] *)
Definition nested : gmap string payload :=
  {[ "scorelist" := {[ "$set" := JObj {[ "owner" := JStr "bob" ]} ]} ]}.

(** [{ note: { text: 'x' } }]: a body without the [scorelist] key. *)
Definition no_envelope : gmap string payload :=
  {[ "note" := {[ "text" := JStr "x" ]} ]}.

(** Twelve records whose scores repeat: 2, 1, 0, 2, 1, 0, ... *)
Definition tied : list scorelist :=
  (λ i : nat, entry i "ann" (2 - Z.of_nat (i mod 3))) <$> seq 0 12.

(** [{ scorelist: { score: 7 } }] *)
Definition rescored : gmap string payload :=
  {[ "scorelist" := {[ "score" := JNum 7 ]} ]}.

(** * Properties *)

(** ** Arrays: [splice], [sort] and the placement loop *)

Lemma splice_prefix {A} (n : nat) (arr : list A) :
  (splice 0 n arr).1 = take n arr.
Proof. reflexivity. Qed.

Lemma sort_insert_perm {A} (cmp : A → A → Z) x (l : list A) :
  sort_insert cmp x l ≡ₚ x :: l.
Proof.
  induction l as [|y ys IH]; simpl; [done|].
  destruct (Z.leb (cmp x y) 0); [done|].
  rewrite IH. apply Permutation_swap.
Qed.

Lemma sort_perm {A} (cmp : A → A → Z) (l : list A) : sort cmp l ≡ₚ l.
Proof.
  induction l as [|x xs IH]; simpl; [done|].
  fold (sort cmp xs). by rewrite sort_insert_perm, IH.
Qed.

Lemma sort_length {A} (cmp : A → A → Z) (l : list A) :
  length (sort cmp l) = length l.
Proof. apply Permutation_length, sort_perm. Qed.

Lemma sort_insert_by_score_sorted x l :
  StronglySorted score_le l → StronglySorted score_le (sort_insert by_score x l).
Proof.
  induction 1 as [|y ys Hs IH Hy]; simpl.
  - repeat constructor.
  - destruct (Z.leb (by_score x y) 0) eqn:Hc.
    + apply Z.leb_le in Hc. unfold by_score in Hc.
      constructor; [by constructor|].
      constructor; [unfold score_le; lia|].
      eapply Forall_impl; [exact Hy|]. unfold score_le. intros; simpl in *; lia.
    + apply Z.leb_gt in Hc. unfold by_score in Hc.
      constructor; [exact IH|].
      rewrite sort_insert_perm. constructor; [unfold score_le; lia | exact Hy].
Qed.

Lemma sort_by_score_sorted l : StronglySorted score_le (sort by_score l).
Proof.
  induction l as [|x xs IH]; simpl; [constructor|].
  by apply sort_insert_by_score_sorted.
Qed.

(** With pairwise-distinct scores an ascending array is strictly ascending. *)
Lemma distinct_sorted_strict (l : list pojo) :
  NoDup ((λ o, score (source o)) <$> l) →
  StronglySorted score_le l → StronglySorted score_lt l.
Proof.
  induction l as [|x xs IH]; intros Hnd Hs; [constructor|].
  apply NoDup_cons in Hnd as [Hx Hnd].
  apply StronglySorted_inv in Hs as [Hs Hall].
  constructor; [by apply IH|].
  apply Forall_forall. intros y Hy.
  pose proof (proj1 (Forall_forall _ _) Hall y Hy) as Hle.
  unfold score_le in Hle. unfold score_lt.
  assert (score (source x) ≠ score (source y)); [|lia].
  intros Heq. apply Hx. rewrite Heq.
  apply list_elem_of_fmap. by exists y.
Qed.

(** Under pairwise-distinct scores the ascending arrangement of an array is
    unique: whatever stable or unstable algorithm the engine runs, [sort]
    returns this one. *)
Lemma distinct_scores_inj (l : list pojo) x y :
  NoDup ((λ o, score (source o)) <$> l) →
  x ∈ l → y ∈ l → score (source x) = score (source y) → x = y.
Proof.
  induction l as [|z l IH]; intros Hnd Hx Hy Heq; [by apply elem_of_nil in Hx|].
  apply NoDup_cons in Hnd as [Hz Hnd].
  apply elem_of_cons in Hx as [->|Hx]; apply elem_of_cons in Hy as [->|Hy].
  - done.
  - exfalso. apply Hz. rewrite Heq. apply list_elem_of_fmap. by exists y.
  - exfalso. apply Hz. rewrite <- Heq. apply list_elem_of_fmap. by exists x.
  - by apply IH.
Qed.

Lemma sort_by_score_unique (l l' : list pojo) :
  NoDup ((λ o, score (source o)) <$> l) →
  l' ≡ₚ l → StronglySorted score_le l' → l' = sort by_score l.
Proof.
  intros Hnd Hperm Hsorted.
  apply (StronglySorted_unique_strong score_le); [|done|apply sort_by_score_sorted|].
  - intros x y Hx Hy Hxy Hyx. rewrite Hperm in Hx. rewrite sort_perm in Hy.
    apply (distinct_scores_inj l); [done..|]. unfold score_le in *. lia.
  - by rewrite sort_perm.
Qed.

(** The loop, when the array is long enough: every addressed index receives
    its placement, the other indices are untouched. *)
Lemma placement_loop_long todo : ∀ i (a : list pojo),
  (i + todo ≤ length a)%nat →
  ∃ r, placement_loop todo i a = Fulfilled r ∧ length r = length a ∧
       ∀ k : nat, r !! k =
         if bool_decide (i ≤ k < i + todo)%nat
         then set_placement (Z.of_nat k + 1) <$> a !! k
         else a !! k.
Proof.
  induction todo as [|todo IH]; intros i a Hlen; simpl.
  - exists a. repeat split; [].
    intros k. case_bool_decide; [lia | done].
  - destruct (lookup_lt_is_Some_2 a i) as [o Ho]; [lia|].
    rewrite Ho.
    destruct (IH (S i) (<[i:=set_placement (Z.of_nat i + 1) o]> a)) as (r & Hr & Hl & Hk).
    { rewrite length_insert. lia. }
    exists r. rewrite Hr. rewrite length_insert in Hl. repeat split; [done|].
    intros k. rewrite Hk.
    destruct (decide (k = i)) as [->|Hne].
    + rewrite list_lookup_insert_eq by lia.
      rewrite Ho. simpl.
      case_bool_decide; [lia|]. case_bool_decide; [done | lia].
    + rewrite list_lookup_insert_ne by done.
      repeat case_bool_decide; try done; lia.
Qed.

(** The loop, when it addresses an index past the end of the array. *)
Lemma placement_loop_short todo : ∀ i (a : list pojo),
  (i ≤ length a < i + todo)%nat →
  placement_loop todo i a = Rejected TypeError.
Proof.
  induction todo as [|todo IH]; intros i a Hlen; simpl; [lia|].
  destruct (a !! i) as [o|] eqn:Ho; [|done].
  apply lookup_lt_Some in Ho.
  apply IH. rewrite length_insert. lia.
Qed.

Lemma source_set_placement j o : source (set_placement j o) = source o.
Proof. reflexivity. Qed.

(** [rank] on ten records or more: the first ten, sorted, placed. *)
Lemma rank_long (l : list pojo) :
  (10 ≤ length l)%nat →
  ∃ lb, rank l = Fulfilled lb ∧ length lb = 10%nat ∧
        (∀ (k : nat) o, lb !! k = Some o → placement o = Some (Z.of_nat k + 1)) ∧
        source <$> lb = source <$> sort by_score (take 10 l).
Proof.
  intros Hlen. unfold rank.
  assert ((if Z.ltb 10 (Z.of_nat (length l)) then (splice 0 10 l).1 else l)
          = take 10 l) as ->.
  { destruct (Z.ltb_spec 10 (Z.of_nat (length l))); [apply splice_prefix|].
    symmetry. apply take_ge. lia. }
  assert (length (sort by_score (take 10 l)) = 10%nat) as Hs.
  { rewrite sort_length, length_take. lia. }
  destruct (placement_loop_long 10 0 (sort by_score (take 10 l)))
    as (lb & Hlb & Hl & Hk); [lia|].
  exists lb. split; [exact Hlb|]. split; [congruence|]. split.
  - intros k o Ho. rewrite Hk in Ho.
    case_bool_decide as Hr.
    + destruct (sort by_score (take 10 l) !! k); simplify_eq/=. done.
    + apply lookup_lt_Some in Ho. lia.
  - apply list_eq. intros k. rewrite !list_lookup_fmap, Hk.
    case_bool_decide; [|done].
    by destruct (sort by_score (take 10 l) !! k).
Qed.

(** [rank] on fewer than ten records: the loop runs off the array. *)
Lemma rank_short (l : list pojo) :
  (length l < 10)%nat → rank l = Rejected TypeError.
Proof.
  intros Hlen. unfold rank.
  destruct (Z.ltb_spec 10 (Z.of_nat (length l))); [lia|].
  apply placement_loop_short. rewrite sort_length. lia.
Qed.

(** ** Routes *)

Lemma serve_index req s :
  serve GET Scorelists req s = dispatch [index] req s.
Proof. reflexivity. Qed.

Lemma serve_show req s :
  serve GET ScorelistsId req s = dispatch [requireToken; show] req s.
Proof. reflexivity. Qed.

Lemma serve_create req s :
  serve POST Scorelists req s = dispatch [requireToken; create] req s.
Proof. reflexivity. Qed.

Lemma serve_update req s :
  serve PATCH ScorelistsId req s = dispatch [requireToken; removeBlanks; update] req s.
Proof. reflexivity. Qed.

Lemma serve_destroy req s :
  serve DELETE ScorelistsId req s = dispatch [requireToken; destroy] req s.
Proof. reflexivity. Qed.

(** What INDEX answers, in terms of [rank]. *)
Lemma index_outcome req s :
  serve GET Scorelists req s =
    (issue Find s,
     match rejects s Find with
     | Some e => PassedToNext e
     | None =>
         match rank (toObject <$> docs s) with
         | Fulfilled lb => Responded 200 (Many lb)
         | Rejected e => PassedToNext e
         end
     end).
Proof.
  rewrite serve_index. unfold dispatch, index, catch_next, bind, Scorelist.find, query, lift, ret.
  simpl. destruct (rejects s Find); [done|].
  by destruct (rank _).
Qed.

Lemma sorted_same_sources (R : relation scorelist) (lb : list pojo) : ∀ l' : list pojo,
  source <$> lb = source <$> l' →
  StronglySorted (λ a b, R (source a) (source b)) l' →
  StronglySorted (λ a b, R (source a) (source b)) lb.
Proof.
  induction lb as [|x lb IH]; intros [|y l'] Heq Hs; try discriminate; [constructor|].
  injection Heq as Hx Hl.
  apply StronglySorted_cons in Hs as [Hall Hs].
  constructor; [by eapply IH|].
  apply (Forall_fmap source (R (source x))).
  change (list_fmap pojo scorelist source lb) with (source <$> lb) in Hl.
  rewrite Hx, Hl. by apply Forall_fmap.
Qed.

Lemma scores_of_objects (ds : list scorelist) :
  (λ o, score (source o)) <$> (toObject <$> ds) = score <$> ds.
Proof. rewrite <- list_fmap_compose. by apply list_fmap_ext. Qed.

Lemma sources_of_objects (ds : list scorelist) : source <$> (toObject <$> ds) = ds.
Proof.
  rewrite <- list_fmap_compose. rewrite <- (list_fmap_id ds) at 2.
  by apply list_fmap_ext.
Qed.

(** INDEX on ten records or more. *)
Lemma index_long req s :
  rejects s Find = None → (10 ≤ length (docs s))%nat →
  ∃ lb, serve GET Scorelists req s = (issue Find s, Responded 200 (Many lb)) ∧
        length lb = 10%nat ∧
        (∀ (k : nat) o, lb !! k = Some o → placement o = Some (Z.of_nat k + 1)) ∧
        source <$> lb = source <$> sort by_score (toObject <$> take 10 (docs s)).
Proof.
  intros Hfind Hlen.
  destruct (rank_long (toObject <$> docs s)) as (lb & Hr & Hl & Hp & Hsrc).
  { by rewrite length_fmap. }
  exists lb. rewrite index_outcome, Hfind, Hr, fmap_take. done.
Qed.

(** INDEX on fewer than ten records. *)
Lemma index_short req s :
  rejects s Find = None → (length (docs s) < 10)%nat →
  serve GET Scorelists req s = (issue Find s, PassedToNext TypeError).
Proof.
  intros Hfind Hlen. rewrite index_outcome, Hfind, rank_short; [done|].
  by rewrite length_fmap.
Qed.

(** Whenever INDEX answers with a leaderboard, [rank] made it from a
    collection of ten records or more. *)
Lemma index_leaderboard_inv req s s' lb :
  serve GET Scorelists req s = (s', Responded 200 (Many lb)) →
  rejects s Find = None ∧ (10 ≤ length (docs s))%nat ∧ s' = issue Find s.
Proof.
  rewrite index_outcome. intros Heq.
  destruct (rejects s Find) as [e|]; [by simplify_eq|].
  destruct (decide (length (docs s) < 10)%nat) as [Hlt|Hge].
  - rewrite rank_short in Heq by (by rewrite length_fmap). by simplify_eq.
  - simplify_eq. repeat split; [lia].
Qed.

(** ** The leaderboard (INDEX) *)

(** C1. When the collection holds more than ten records, the leaderboard is
    made of the first ten records in store-return order, which are then
    sorted by score; and there is a collection of eleven records in
    descending-score order whose best (lowest) score is not on the
    leaderboard. *)
Theorem index_truncates_before_sorting :
  (∀ req s,
     rejects s Find = None → (10 < length (docs s))%nat →
     ∃ lb, serve GET Scorelists req s = (issue Find s, Responded 200 (Many lb)) ∧
           source <$> lb = source <$> sort by_score (toObject <$> take 10 (docs s)) ∧
           source <$> lb ≡ₚ take 10 (docs s))
  ∧
  (∃ req s best lb,
     length (docs s) = 11%nat ∧
     StronglySorted (λ a b, score b < score a) (docs s) ∧
     best ∈ docs s ∧ (∀ d, d ∈ docs s → score best ≤ score d) ∧
     (serve GET Scorelists req s).2 = Responded 200 (Many lb) ∧
     best ∉ source <$> lb).
Proof.
  split.
  - intros req s Hfind Hlen.
    destruct (index_long req s Hfind) as (lb & Hrun & _ & _ & Hsrc); [lia|].
    exists lb. repeat split; [done..|].
    rewrite Hsrc, sort_perm. by rewrite sources_of_objects.
  - exists anonymous, (healthy eleven), (entry 10 "ann" 1). eexists.
    split; [reflexivity|].
    split; [repeat (constructor; simpl; try lia)|].
    split; [apply list_elem_of_lookup; by exists 10%nat|].
    split.
    { intros d Hd. repeat (apply elem_of_cons in Hd as [->|Hd]; [simpl; lia|]).
      by apply elem_of_nil in Hd. }
    split; [vm_compute; reflexivity|].
    intros Hin. apply list_elem_of_fmap in Hin as (o & Ho & Hin).
    repeat (apply elem_of_cons in Hin as [->|Hin]; [discriminate Ho|]).
    by apply elem_of_nil in Hin.
Qed.

Lemma index_truncates_before_sorting_witness :
  ∃ lb, serve GET Scorelists anonymous (healthy eleven)
          = (issue Find (healthy eleven), Responded 200 (Many lb)) ∧
        source <$> lb = source <$> sort by_score (toObject <$> take 10 eleven) ∧
        source <$> lb ≡ₚ take 10 eleven.
Proof.
  apply (proj1 index_truncates_before_sorting anonymous (healthy eleven)).
  - reflexivity.
  - simpl. lia.
Defined.

(** C2, at the inputs where the handler departs from it: on a collection of
    fewer than ten records, the empty one included, INDEX answers with no
    leaderboard; the placement loop throws and the error goes to [next]. *)
Theorem index_faults_below_ten req s :
  rejects s Find = None → (length (docs s) < 10)%nat →
  serve GET Scorelists req s = (issue Find s, PassedToNext TypeError).
Proof. apply index_short. Qed.

Lemma index_faults_below_ten_witness :
  serve GET Scorelists anonymous (healthy [])
    = (issue Find (healthy []), PassedToNext TypeError)
  ∧ serve GET Scorelists anonymous (healthy three)
    = (issue Find (healthy three), PassedToNext TypeError).
Proof.
  split.
  - apply (index_faults_below_ten anonymous (healthy [])); [reflexivity | simpl; lia].
  - apply (index_faults_below_ten anonymous (healthy three)); [reflexivity | simpl; lia].
Defined.

(** C3, with the inputs where the handler departs from it.  For a
    collection with pairwise-distinct scores of ten records or more, INDEX
    answers with the first ten records rearranged, strictly ascending by
    score, the record at index [i] having placement [i + 1]; for a
    collection of fewer than ten records it answers with no leaderboard at
    all: the placement loop throws. *)
Theorem index_sorted_with_placements req s :
  NoDup (score <$> docs s) →
  rejects s Find = None →
  ((length (docs s) < 10)%nat →
   serve GET Scorelists req s = (issue Find s, PassedToNext TypeError))
  ∧
  ((10 ≤ length (docs s))%nat →
   ∃ lb, serve GET Scorelists req s = (issue Find s, Responded 200 (Many lb)) ∧
         length lb = 10%nat ∧
         source <$> lb ≡ₚ take 10 (docs s) ∧
         StronglySorted score_lt lb ∧
         ∀ (i : nat) o, lb !! i = Some o → placement o = Some (Z.of_nat i + 1)).
Proof.
  intros Hnd Hfind. split; [by apply index_short|].
  intros Hlen.
  destruct (index_long req s Hfind Hlen) as (lb & Hrun & Hl & Hp & Hsrc).
  exists lb. split; [done|]. split; [done|]. split; [|split; [|done]].
  - by rewrite Hsrc, sort_perm, sources_of_objects.
  - apply (sorted_same_sources (λ a b, score a < score b) _ _ Hsrc).
    apply distinct_sorted_strict; [|apply sort_by_score_sorted].
    rewrite sort_perm, scores_of_objects, fmap_take.
    eapply sublist_NoDup; [exact Hnd | apply sublist_take].
Qed.

Lemma index_sorted_with_placements_witness :
  (* three records, scores 30, 10, 20: no leaderboard *)
  serve GET Scorelists anonymous (healthy three)
    = (issue Find (healthy three), PassedToNext TypeError)
  ∧
  (* eleven records, scores 11, ..., 1 *)
  ∃ lb, serve GET Scorelists anonymous (healthy eleven)
          = (issue Find (healthy eleven), Responded 200 (Many lb)) ∧
        length lb = 10%nat ∧
        source <$> lb ≡ₚ take 10 eleven ∧
        StronglySorted score_lt lb ∧
        ∀ (i : nat) o, lb !! i = Some o → placement o = Some (Z.of_nat i + 1).
Proof.
  split.
  - apply (index_sorted_with_placements anonymous (healthy three));
      [by compute_done | reflexivity | simpl; lia].
  - apply (index_sorted_with_placements anonymous (healthy eleven));
      [by compute_done | reflexivity | simpl; lia].
Defined.

(** C4. Whatever the size of the collection, a leaderboard answered by
    INDEX holds at most ten records; on ten records or more it is answered
    and holds exactly ten. *)
Theorem index_at_most_ten req s :
  (∀ s' lb,
     serve GET Scorelists req s = (s', Responded 200 (Many lb)) →
     (length lb ≤ 10)%nat)
  ∧
  (rejects s Find = None → (10 ≤ length (docs s))%nat →
   ∃ lb, serve GET Scorelists req s = (issue Find s, Responded 200 (Many lb)) ∧
         length lb = 10%nat).
Proof.
  split.
  - intros s' lb Hrun.
    destruct (index_leaderboard_inv _ _ _ _ Hrun) as (Hfind & Hlen & ->).
    destruct (index_long req s Hfind Hlen) as (lb' & Hrun' & Hl & _).
    rewrite Hrun in Hrun'. simplify_eq. lia.
  - intros Hfind Hlen.
    destruct (index_long req s Hfind Hlen) as (lb & Hrun & Hl & _). by exists lb.
Qed.

Lemma index_at_most_ten_witness :
  ∃ lb, serve GET Scorelists anonymous (healthy eleven)
          = (issue Find (healthy eleven), Responded 200 (Many lb)) ∧
        (length lb ≤ 10)%nat.
Proof.
  destruct (index_at_most_ten anonymous (healthy eleven)) as [Hall Hex].
  destruct Hex as (lb & Hrun & _); [reflexivity | simpl; lia |].
  exists lb. split; [exact Hrun|]. exact (Hall _ _ Hrun).
Defined.

(** ** Authentication *)

Lemma requireToken_refuses rest req s :
  authenticate req s = None →
  dispatch (requireToken :: rest) req s = (s, Responded 401 Unauthorized).
Proof. intros H. simpl. unfold requireToken. by rewrite H. Qed.

Lemma requireToken_passes rest req s u :
  authenticate req s = Some u →
  dispatch (requireToken :: rest) req s = dispatch rest (with_user u req) s.
Proof. intros H. simpl. unfold requireToken. by rewrite H. Qed.

(** ** What each protected route answers to an authenticated caller *)

Lemma show_outcome req s u :
  authenticate req s = Some u →
  serve GET ScorelistsId req s =
    (issue (FindById (params_id req)) s,
     match rejects s (FindById (params_id req)) with
     | Some e => PassedToNext e
     | None =>
         match find_doc (params_id req) (docs s) with
         | None => PassedToNext DocumentNotFoundError
         | Some d => Responded 200 (One (toObject d))
         end
     end).
Proof.
  intros Hu. rewrite serve_show, (requireToken_passes _ _ _ u Hu).
  unfold dispatch, show, catch_next, bind, Scorelist.findById, query, lift, ret, handle404.
  simpl. destruct (rejects s _); [done|].
  by destruct (find_doc _ _).
Qed.

Lemma create_outcome req s u :
  authenticate req s = Some u →
  serve POST Scorelists req s =
    match body req !! "scorelist" with
    | None => (s, PassedToNext TypeError)
    | Some p =>
        let doc := <["owner" := JStr (user_id u)]> p in
        let s1 := issue (Create doc) s in
        match rejects s (Create doc) with
        | Some e => (s1, PassedToNext e)
        | None =>
            match cast (next_id s) doc with
            | None => (s1, PassedToNext ValidationError)
            | Some d => (bump_id (with_docs (docs s ++ [d]) s1),
                         Responded 201 (One (toObject d)))
            end
        end
    end.
Proof.
  intros Hu. rewrite serve_create, (requireToken_passes _ _ _ u Hu).
  unfold dispatch, create, catch_next, bind, Scorelist.create, query, lift, ret, assign_owner.
  simpl. destruct (body req !! "scorelist") as [p|]; [|done].
  simpl. destruct (rejects s _); [done|].
  by destruct (cast _ _).
Qed.

Lemma update_outcome req s u :
  authenticate req s = Some u →
  serve PATCH ScorelistsId req s =
    match body req !! "scorelist" with
    | None => (s, PassedToNext TypeError)
    | Some p =>
        let patch := delete "owner" (filter (λ kv, kv.2 ≠ JStr "") p) in
        let s1 := issue (FindById (params_id req)) s in
        match rejects s (FindById (params_id req)) with
        | Some e => (s1, PassedToNext e)
        | None =>
            match handle404 (find_doc (params_id req) (docs s)) with
            | Rejected e => (s1, PassedToNext e)
            | Fulfilled d =>
                match requireOwnership (with_user u req) d with
                | Rejected e => (s1, PassedToNext e)
                | Fulfilled _ =>
                    let s2 := issue (UpdateOne (_id d) patch) s1 in
                    match rejects s (UpdateOne (_id d) patch) with
                    | Some e => (s2, PassedToNext e)
                    | None =>
                        (with_docs
                           (map (λ x, if Nat.eqb (_id x) (_id d)
                                      then apply_update patch x else x) (docs s)) s2,
                         Responded 204 NoBody)
                    end
                end
            end
        end
    end.
Proof.
  intros Hu. rewrite serve_update, (requireToken_passes _ _ _ u Hu).
  unfold dispatch, removeBlanks, update, catch_next, bind, Scorelist.findById,
    Scorelist.updateOne, query, lift, ret, delete_owner.
  simpl. rewrite lookup_fmap.
  destruct (body req !! "scorelist") as [p|]; [|done].
  simpl. destruct (rejects s (FindById _)); [done|].
  destruct (handle404 _) as [d|e]; [|done].
  destruct (requireOwnership _ d) as [[]|e]; [|done].
  simpl. by destruct (rejects s (UpdateOne _ _)).
Qed.

Lemma destroy_outcome req s u :
  authenticate req s = Some u →
  serve DELETE ScorelistsId req s =
    let s1 := issue (FindById (params_id req)) s in
    match rejects s (FindById (params_id req)) with
    | Some e => (s1, PassedToNext e)
    | None =>
        match handle404 (find_doc (params_id req) (docs s)) with
        | Rejected e => (s1, PassedToNext e)
        | Fulfilled d =>
            match requireOwnership (with_user u req) d with
            | Rejected e => (s1, PassedToNext e)
            | Fulfilled _ =>
                let s2 := issue (DeleteOne (_id d)) s1 in
                (match rejects s (DeleteOne (_id d)) with
                 | Some _ => s2
                 | None =>
                     with_docs
                       (List.filter (λ x, negb (Nat.eqb (_id x) (_id d))) (docs s)) s2
                 end,
                 Responded 204 NoBody)
            end
        end
    end.
Proof.
  intros Hu. rewrite serve_destroy, (requireToken_passes _ _ _ u Hu).
  unfold dispatch, destroy, catch_next, bind, Scorelist.findById,
    Scorelist.deleteOne, detached, query, lift, ret.
  simpl. destruct (rejects s (FindById _)); [done|].
  destruct (handle404 _) as [d|e]; [|done].
  destruct (requireOwnership _ d) as [[]|e]; [|done].
  simpl. by destruct (rejects s (DeleteOne _)).
Qed.

(** ** Lookups in the collection *)

Lemma find_doc_id id ds d : find_doc id ds = Some d → _id d = id.
Proof.
  intros H. apply List.find_some in H as [_ H]. by apply Nat.eqb_eq in H.
Qed.

Lemma find_doc_snoc id ds d :
  find_doc id ds = None →
  find_doc id (ds ++ [d]) = if Nat.eqb (_id d) id then Some d else None.
Proof.
  unfold find_doc. induction ds as [|x xs IH]; simpl; [done|].
  destruct (Nat.eqb (_id x) id); [done | exact IH].
Qed.

Lemma find_doc_map id id' patch ds :
  find_doc id' (map (λ x, if Nat.eqb (_id x) id then apply_update patch x else x) ds)
    = (λ x, if Nat.eqb (_id x) id then apply_update patch x else x) <$> find_doc id' ds.
Proof.
  unfold find_doc. induction ds as [|x xs IH]; simpl; [done|].
  assert (_id (if Nat.eqb (_id x) id then apply_update patch x else x) = _id x) as ->.
  { by destruct (Nat.eqb (_id x) id). }
  destruct (Nat.eqb (_id x) id'); [done | exact IH].
Qed.

Lemma handle404_fulfilled found d : handle404 found = Fulfilled d → found = Some d.
Proof. destruct found; simpl; congruence. Qed.

Lemma requireOwnership_fulfilled req u d r :
  requireOwnership (with_user u req) d = Fulfilled r → owner d = user_id u.
Proof. unfold requireOwnership. simpl. by case_decide. Qed.

Lemma requireOwnership_owner req u d :
  owner d = user_id u → requireOwnership (with_user u req) d = Fulfilled tt.
Proof. intros H. unfold requireOwnership. simpl. by rewrite decide_True. Qed.

(** ** UPDATE and the owner *)

Lemma set_fields_plain (patch : payload) (key : string) :
  is_operator key = false →
  set_fields patch !! key =
    match patch !! key with
    | Some v => Some v
    | None => match patch !! "$set" with
              | Some (JObj o) => o !! key
              | _ => None
              end
    end.
Proof.
  intros Hkey. unfold set_fields.
  destruct (patch !! key) as [v|] eqn:Hv.
  - apply lookup_union_Some_l. by apply map_lookup_filter_Some.
  - rewrite lookup_union_r by (apply map_lookup_filter_None; by left).
    by destruct (patch !! "$set") as [[]|].
Qed.

(** The top-level [owner] key never reaches the store. *)
Lemma update_issues_no_top_level_owner req s :
  ∃ issued,
    calls (serve PATCH ScorelistsId req s).1 = calls s ++ issued ∧
    ∀ id patch, UpdateOne id patch ∈ issued → patch !! "owner" = None.
Proof.
  assert (∀ id q, UpdateOne id q ∈ [] → q !! "owner" = None) as Hnil.
  { intros id q Hin. by apply elem_of_nil in Hin. }
  assert (∀ id q, UpdateOne id q ∈ [FindById (params_id req)] → q !! "owner" = None)
    as Hfind.
  { intros id q Hin. apply list_elem_of_singleton in Hin. discriminate. }
  destruct (authenticate req s) as [u|] eqn:Hu.
  - rewrite (update_outcome _ _ _ Hu).
    destruct (body req !! "scorelist") as [p|].
    2:{ exists []. rewrite app_nil_r. split; [done | exact Hnil]. }
    cbv zeta.
    destruct (rejects s (FindById _)).
    { exists [FindById (params_id req)]. split; [done | exact Hfind]. }
    destruct (handle404 _) as [d|e].
    2:{ exists [FindById (params_id req)]. split; [done | exact Hfind]. }
    destruct (requireOwnership _ d) as [[]|e].
    2:{ exists [FindById (params_id req)]. split; [done | exact Hfind]. }
    set (patch := delete "owner" _).
    exists [FindById (params_id req); UpdateOne (_id d) patch]. split.
    + destruct (rejects s (UpdateOne _ _)); simpl; by rewrite <- app_assoc.
    + intros id q Hin. apply elem_of_cons in Hin as [?|Hin]; [discriminate|].
      apply list_elem_of_singleton in Hin. simplify_eq. apply lookup_delete_eq.
  - rewrite serve_update, (requireToken_refuses _ _ _ Hu). simpl.
    exists []. rewrite app_nil_r. split; [done | exact Hnil].
Qed.

(** An owner named under [$set] is still in the patch after the handler has
    cleaned it, and it is among the fields the patch sets. *)
Lemma nested_owner_survives (p q : payload) (o : string) :
  p !! "$set" = Some (JObj q) → q !! "owner" = Some (JStr o) →
  set_fields (delete "owner" (filter (λ kv, kv.2 ≠ JStr "") p)) !! "owner"
    = Some (JStr o).
Proof.
  intros Hset Hq. rewrite set_fields_plain by reflexivity.
  rewrite lookup_delete_eq, lookup_delete_ne by done.
  assert (filter (λ kv : string * jsval, kv.2 ≠ JStr "") p !! "$set" = Some (JObj q))
    as ->.
  { by apply map_lookup_filter_Some. }
  exact Hq.
Qed.

(** C5, at the input where the handler departs from it.  The handler
    deletes the top-level [owner] key of the payload and looks no further:
    when the owner of a record sends an owner under [$set], the patch
    reaches the store with it, the request is answered 204 and the stored
    record has the new owner. *)
Theorem update_discards_top_level_owner_only req s u d (p q : payload) (o : string) :
  let patch := delete "owner" (filter (λ kv, kv.2 ≠ JStr "") p) in
  authenticate req s = Some u →
  body req !! "scorelist" = Some p →
  p !! "$set" = Some (JObj q) → q !! "owner" = Some (JStr o) →
  rejects s (FindById (params_id req)) = None →
  find_doc (params_id req) (docs s) = Some d →
  owner d = user_id u →
  rejects s (UpdateOne (_id d) patch) = None →
  (serve PATCH ScorelistsId req s).2 = Responded 204 NoBody ∧
  patch !! "$set" = Some (JObj q) ∧
  UpdateOne (_id d) patch ∈ calls (serve PATCH ScorelistsId req s).1 ∧
  owner <$> find_doc (params_id req) (docs (serve PATCH ScorelistsId req s).1)
    = Some o.
Proof.
  intros patch Hu Hp Hset Hq Hfind Hd Hown Hrej.
  rewrite (update_outcome _ _ _ Hu), Hp. cbv zeta. rewrite Hfind, Hd. simpl.
  rewrite (requireOwnership_owner _ _ _ Hown). fold patch. rewrite Hrej. simpl.
  split; [done|]. split; [|split].
  - unfold patch. rewrite lookup_delete_ne by done. by apply map_lookup_filter_Some.
  - rewrite !elem_of_app. right. by apply list_elem_of_singleton.
  - rewrite find_doc_map, Hd. simpl.
    rewrite (find_doc_id _ _ _ Hd), Nat.eqb_refl. simpl.
    unfold patch. by rewrite (nested_owner_survives p q o Hset Hq).
Qed.

Lemma update_discards_top_level_owner_only_witness :
  let r := serve PATCH ScorelistsId (signed "token-ann" 0 nested) (healthy three) in
  owner <$> find_doc 0 three = Some "ann" ∧
  r.2 = Responded 204 NoBody ∧
  owner <$> find_doc 0 (docs r.1) = Some "bob".
Proof.
  destruct (update_discards_top_level_owner_only
              (signed "token-ann" 0 nested) (healthy three) (User "ann")
              (entry 0 "ann" 30) {[ "$set" := JObj {[ "owner" := JStr "bob" ]} ]}
              {[ "owner" := JStr "bob" ]} "bob")
    as (H204 & _ & _ & Howner); try (vm_compute; reflexivity).
  split; [reflexivity|]. split; [exact H204 | exact Howner].
Defined.

(** The owner of record 0 updates it with a payload naming another owner at
    the top level: the patch reaches the store without the key, the score
    changes, the owners do not. *)
Example update_with_forged_owner :
  let r := serve PATCH ScorelistsId (signed "token-ann" 0 forged) (healthy three) in
  r.2 = Responded 204 NoBody ∧
  calls r.1 = [FindById 0; UpdateOne 0 {[ "score" := JNum 5; "title" := JStr "x" ]}] ∧
  owner <$> docs r.1 = ["ann"; "bob"; "ann"] ∧
  score <$> docs r.1 = [5; 10; 20].
Proof. cbv zeta. repeat split; vm_compute; reflexivity. Qed.

(** ** Guards of UPDATE and DESTROY *)

Lemma writes_issue_read c s : is_write c = false → writes (issue c s) = writes s.
Proof.
  intros Hc. unfold writes. simpl. rewrite List.filter_app. simpl.
  rewrite Hc. apply app_nil_r.
Qed.

Lemma requireOwnership_stranger req u d :
  owner d ≠ user_id u → requireOwnership (with_user u req) d = Rejected OwnershipError.
Proof. intros H. unfold requireOwnership. simpl. by rewrite decide_False. Qed.

(** When a guard rejects, the chain ends right after [findById]. *)
Lemma guard_rejection req s u e :
  authenticate req s = Some u →
  rejects s (FindById (params_id req)) = None →
  (handle404 (find_doc (params_id req) (docs s)) = Rejected e ∨
   ∃ d, handle404 (find_doc (params_id req) (docs s)) = Fulfilled d ∧
        requireOwnership (with_user u req) d = Rejected e) →
  serve DELETE ScorelistsId req s = (issue (FindById (params_id req)) s, PassedToNext e) ∧
  serve PATCH ScorelistsId req s =
    match body req !! "scorelist" with
    | None => (s, PassedToNext TypeError)
    | Some _ => (issue (FindById (params_id req)) s, PassedToNext e)
    end.
Proof.
  intros Hu Hfind Hguard.
  rewrite (destroy_outcome _ _ _ Hu), (update_outcome _ _ _ Hu), Hfind. cbv zeta.
  destruct Hguard as [H404|(d & H404 & Hown)]; rewrite H404; [|rewrite Hown];
    by destruct (body req !! "scorelist").
Qed.

(** C6. For an update and for a delete alike: when the record is absent
    (404, [DocumentNotFoundError]) or the caller is not its owner
    ([OwnershipError]), the request ends with that error passed to the error
    handler, no write call is issued and the collection is unchanged. *)
Theorem mutation_guards_short_circuit req s u e :
  authenticate req s = Some u →
  rejects s (FindById (params_id req)) = None →
  (find_doc (params_id req) (docs s) = None ∧ e = DocumentNotFoundError) ∨
  (∃ d, find_doc (params_id req) (docs s) = Some d ∧ owner d ≠ user_id u ∧
        e = OwnershipError) →
  serve DELETE ScorelistsId req s = (issue (FindById (params_id req)) s, PassedToNext e) ∧
  (∃ e', (serve PATCH ScorelistsId req s).2 = PassedToNext e' ∧
         (is_Some (body req !! "scorelist") → e' = e)) ∧
  ∀ m, m = PATCH ∨ m = DELETE →
       docs (serve m ScorelistsId req s).1 = docs s ∧
       writes (serve m ScorelistsId req s).1 = writes s.
Proof.
  intros Hu Hfind Hguard.
  destruct (guard_rejection req s u e Hu Hfind) as [Hdel Hupd].
  { destruct Hguard as [[H ->]|(d & H & Hown & ->)]; rewrite H; [by left|].
    right. exists d. split; [done|]. by apply requireOwnership_stranger. }
  split; [exact Hdel|]. split.
  - rewrite Hupd. destruct (body req !! "scorelist") as [p|].
    + by exists e.
    + exists TypeError. split; [done|]. by intros [? ?].
  - intros m [->| ->].
    + rewrite Hupd. destruct (body req !! "scorelist"); [|done].
      split; [done|]. by apply writes_issue_read.
    + rewrite Hdel. split; [done|]. by apply writes_issue_read.
Qed.

Lemma mutation_guards_short_circuit_witness :
  (* record 7 does not exist *)
  serve DELETE ScorelistsId (signed "token-ann" 7 forged) (healthy three)
    = (issue (FindById 7) (healthy three), PassedToNext DocumentNotFoundError)
  ∧
  (* record 1 belongs to bob *)
  (serve DELETE ScorelistsId (signed "token-ann" 1 forged) (healthy three)
     = (issue (FindById 1) (healthy three), PassedToNext OwnershipError) ∧
   (∃ e', (serve PATCH ScorelistsId (signed "token-ann" 1 forged) (healthy three)).2
            = PassedToNext e' ∧
          (is_Some (forged !! "scorelist") → e' = OwnershipError)) ∧
   ∀ m, m = PATCH ∨ m = DELETE →
        docs (serve m ScorelistsId (signed "token-ann" 1 forged) (healthy three)).1
          = three ∧
        writes (serve m ScorelistsId (signed "token-ann" 1 forged) (healthy three)).1
          = []).
Proof.
  split.
  - apply (mutation_guards_short_circuit
             (signed "token-ann" 7 forged) (healthy three) (User "ann")
             DocumentNotFoundError); [reflexivity | reflexivity |].
    left. split; reflexivity.
  - apply (mutation_guards_short_circuit
             (signed "token-ann" 1 forged) (healthy three) (User "ann")
             OwnershipError); [reflexivity | reflexivity |].
    right. exists (entry 1 "bob" 10). split; [reflexivity|]. split; [|reflexivity].
    simpl. discriminate.
Defined.

(** ** Rejections of store calls *)

(** X11. A rejection of [find], [findById], [create] or [updateOne] reaches
    the error handler: those promises are part of their chains. *)
Lemma rejections_surface req s u e :
  authenticate req s = Some u →
  (rejects s Find = Some e → (serve GET Scorelists req s).2 = PassedToNext e) ∧
  (rejects s (FindById (params_id req)) = Some e →
     (serve GET ScorelistsId req s).2 = PassedToNext e ∧
     (serve DELETE ScorelistsId req s).2 = PassedToNext e ∧
     (is_Some (body req !! "scorelist") →
      (serve PATCH ScorelistsId req s).2 = PassedToNext e)) ∧
  (∀ p, body req !! "scorelist" = Some p →
        rejects s (Create (<["owner" := JStr (user_id u)]> p)) = Some e →
        (serve POST Scorelists req s).2 = PassedToNext e) ∧
  (∀ p d, body req !! "scorelist" = Some p →
          rejects s (FindById (params_id req)) = None →
          find_doc (params_id req) (docs s) = Some d →
          owner d = user_id u →
          rejects s (UpdateOne (_id d) (delete "owner" (filter (λ kv, kv.2 ≠ JStr "") p)))
            = Some e →
          (serve PATCH ScorelistsId req s).2 = PassedToNext e).
Proof.
  intros Hu. split; [|split; [|split]].
  - intros H. by rewrite index_outcome, H.
  - intros H. rewrite (show_outcome _ _ _ Hu), (destroy_outcome _ _ _ Hu),
      (update_outcome _ _ _ Hu), H. cbv zeta.
    split; [done|]. split; [done|]. intros [p ->]. done.
  - intros p Hp H. rewrite (create_outcome _ _ _ Hu), Hp. cbv zeta. by rewrite H.
  - intros p d Hp Hfind Hd Hown H.
    rewrite (update_outcome _ _ _ Hu), Hp. cbv zeta. rewrite Hfind, Hd. simpl.
    rewrite (requireOwnership_owner _ _ _ Hown). by rewrite H.
Qed.

(** C7, at the input where the handler departs from it: the owner deletes an
    existing record and the store rejects [deleteOne]; the request is
    answered 204 all the same, the rejection reaches nobody and the record
    is still stored. *)
Theorem destroy_swallows_deleteOne_rejection req s u d e :
  authenticate req s = Some u →
  rejects s (FindById (params_id req)) = None →
  find_doc (params_id req) (docs s) = Some d →
  owner d = user_id u →
  rejects s (DeleteOne (_id d)) = Some e →
  serve DELETE ScorelistsId req s =
    (issue (DeleteOne (_id d)) (issue (FindById (params_id req)) s),
     Responded 204 NoBody).
Proof.
  intros Hu Hfind Hd Hown Hrej.
  rewrite (destroy_outcome _ _ _ Hu), Hfind, Hd. simpl.
  rewrite (requireOwnership_owner _ _ _ Hown). by rewrite Hrej.
Qed.

Lemma destroy_swallows_deleteOne_rejection_witness :
  rejects (failing_delete three) (DeleteOne 0) = Some (StoreError "connection lost") ∧
  serve DELETE ScorelistsId (signed "token-ann" 0 ∅) (failing_delete three) =
    (issue (DeleteOne 0) (issue (FindById 0) (failing_delete three)),
     Responded 204 NoBody).
Proof.
  split; [reflexivity|].
  apply (destroy_swallows_deleteOne_rejection
           (signed "token-ann" 0 ∅) (failing_delete three) (User "ann")
           (entry 0 "ann" 30) (StoreError "connection lost")); reflexivity.
Defined.

(** ** CREATE *)

(** C8 as stated fails: an authenticated caller is not always answered 201.
    A body without the [scorelist] key makes the handler throw, and a
    [create] the store rejects is passed to the error handler. *)
Lemma create_is_not_always_201 :
  authenticate (signed "token-ann" 0 no_envelope) (healthy []) = Some (User "ann") ∧
  serve POST Scorelists (signed "token-ann" 0 no_envelope) (healthy [])
    = (healthy [], PassedToNext TypeError) ∧
  authenticate (signed "token-ann" 0 forged) (failing_create []) = Some (User "ann") ∧
  (serve POST Scorelists (signed "token-ann" 0 forged) (failing_create [])).2
    = PassedToNext (StoreError "connection lost") ∧
  docs (serve POST Scorelists (signed "token-ann" 0 forged) (failing_create [])).1 = [].
Proof. repeat split; vm_compute; reflexivity. Qed.

(** C8, amended. When the body of an authenticated caller's request carries
    the [scorelist] object and the store accepts the document, CREATE
    answers 201 with the created record, which is appended to the
    collection; its owner is the caller's id, whatever owner the payload
    named. *)
Theorem create_sets_owner req s u p d :
  authenticate req s = Some u →
  body req !! "scorelist" = Some p →
  rejects s (Create (<["owner" := JStr (user_id u)]> p)) = None →
  cast (next_id s) (<["owner" := JStr (user_id u)]> p) = Some d →
  (serve POST Scorelists req s).2 = Responded 201 (One (toObject d)) ∧
  docs (serve POST Scorelists req s).1 = docs s ++ [d] ∧
  owner d = user_id u.
Proof.
  intros Hu Hp Hrej Hcast.
  rewrite (create_outcome _ _ _ Hu), Hp. cbv zeta. rewrite Hrej, Hcast.
  split; [done|]. split; [done|].
  unfold cast in Hcast. rewrite lookup_insert_eq in Hcast.
  destruct (_ !! "score") as [[]|]; by simplify_eq.
Qed.

Lemma create_sets_owner_witness :
  let r := serve POST Scorelists (signed "token-ann" 0 forged) (healthy three) in
  let d := {| _id := 3; owner := "ann"; score := 5; fields := {[ "title" := JStr "x" ]} |} in
  r.2 = Responded 201 (One (toObject d)) ∧ docs r.1 = three ++ [d] ∧ owner d = "ann".
Proof.
  apply (create_sets_owner (signed "token-ann" 0 forged) (healthy three) (User "ann")
           {[ "owner" := JStr "bob"; "score" := JNum 5; "title" := JStr "x" ]});
    vm_compute; reflexivity.
Defined.

(** ** Who may call what *)

(** C9. INDEX answers the same whoever asks, token or not; the four other
    routes answer 401 without touching the store unless the token is valid;
    and SHOW hands an existing record to any authenticated caller, with no
    comparison of its owner with the caller. *)
Theorem authentication_policy :
  (∀ req req' s, serve GET Scorelists req s = serve GET Scorelists req' s) ∧
  (∀ m p req s,
     (m, p) ∈ [(GET, ScorelistsId); (POST, Scorelists);
               (PATCH, ScorelistsId); (DELETE, ScorelistsId)] →
     authenticate req s = None →
     serve m p req s = (s, Responded 401 Unauthorized)) ∧
  (∀ req s u d,
     authenticate req s = Some u →
     rejects s (FindById (params_id req)) = None →
     find_doc (params_id req) (docs s) = Some d →
     serve GET ScorelistsId req s =
       (issue (FindById (params_id req)) s, Responded 200 (One (toObject d)))).
Proof.
  split; [|split].
  - intros req req' s. by rewrite !index_outcome.
  - intros m p req s Hin Hu.
    repeat (apply elem_of_cons in Hin as [Heq|Hin];
            [injection Heq as -> ->; by apply requireToken_refuses|]).
    by apply elem_of_nil in Hin.
  - intros req s u d Hu Hfind Hd.
    by rewrite (show_outcome _ _ _ Hu), Hfind, Hd.
Qed.

Lemma authentication_policy_witness :
  (* nobody is signed in, the leaderboard is served *)
  serve GET Scorelists anonymous (healthy eleven)
    = serve GET Scorelists (signed "token-ann" 0 ∅) (healthy eleven) ∧
  (* no token, no deletion *)
  serve DELETE ScorelistsId anonymous (healthy three)
    = (healthy three, Responded 401 Unauthorized) ∧
  (* ann reads bob's record *)
  serve GET ScorelistsId (signed "token-ann" 1 ∅) (healthy three)
    = (issue (FindById 1) (healthy three), Responded 200 (One (toObject (entry 1 "bob" 10)))).
Proof.
  destruct authentication_policy as (Hindex & Hauth & Hshow).
  split; [apply Hindex|]. split.
  - apply Hauth; [|reflexivity]. by compute_done.
  - apply (Hshow (signed "token-ann" 1 ∅) (healthy three) (User "ann")
             (entry 1 "bob" 10)); reflexivity.
Defined.

(** ** Requests without the envelope *)

(** C10. A POST or PATCH whose body has no [scorelist] key makes the handler
    throw before it calls the store: the store is exactly as it was, no call
    logged, and the error goes to the error handler. *)
Theorem missing_envelope_faults req s u :
  authenticate req s = Some u →
  body req !! "scorelist" = None →
  serve POST Scorelists req s = (s, PassedToNext TypeError) ∧
  serve PATCH ScorelistsId req s = (s, PassedToNext TypeError).
Proof.
  intros Hu Hbody.
  by rewrite (create_outcome _ _ _ Hu), (update_outcome _ _ _ Hu), Hbody.
Qed.

Lemma missing_envelope_faults_witness :
  serve POST Scorelists (signed "token-ann" 0 no_envelope) (healthy three)
    = (healthy three, PassedToNext TypeError) ∧
  serve PATCH ScorelistsId (signed "token-ann" 0 no_envelope) (healthy three)
    = (healthy three, PassedToNext TypeError).
Proof.
  apply (missing_envelope_faults (signed "token-ann" 0 no_envelope) (healthy three)
           (User "ann")); reflexivity.
Defined.

(** * Further properties of the handlers *)

(** ** The leaderboard when scores repeat *)

(** X1. Ties allowed: every leaderboard INDEX answers with holds exactly ten
    records, the first ten of the collection rearranged, ascending by score,
    and the record at index [i] has placement [i + 1]. *)
Theorem index_ascending_with_ties req s s' lb :
  serve GET Scorelists req s = (s', Responded 200 (Many lb)) →
  length lb = 10%nat ∧
  source <$> lb ≡ₚ take 10 (docs s) ∧
  StronglySorted score_le lb ∧
  ∀ (i : nat) o, lb !! i = Some o → placement o = Some (Z.of_nat i + 1).
Proof.
  intros Hrun.
  destruct (index_leaderboard_inv _ _ _ _ Hrun) as (Hfind & Hlen & ->).
  destruct (index_long req s Hfind Hlen) as (lb' & Hrun' & Hl & Hp & Hsrc).
  rewrite Hrun in Hrun'. simplify_eq.
  split; [done|]. split; [|split; [|done]].
  - by rewrite Hsrc, sort_perm, sources_of_objects.
  - apply (sorted_same_sources (λ a b, score a ≤ score b) _ _ Hsrc).
    apply sort_by_score_sorted.
Qed.

Lemma index_ascending_with_ties_witness :
  ∃ lb, (serve GET Scorelists anonymous (healthy tied)).2 = Responded 200 (Many lb) ∧
        (λ o, score (source o)) <$> lb = [0; 0; 0; 1; 1; 1; 2; 2; 2; 2] ∧
        StronglySorted score_le lb.
Proof.
  eexists. split; [vm_compute; reflexivity|]. split; [vm_compute; reflexivity|].
  eapply (index_ascending_with_ties anonymous (healthy tied)).
  vm_compute. reflexivity.
Defined.

Lemma rank_first_ten (l : list pojo) :
  (10 ≤ length l)%nat → rank l = rank (take 10 l).
Proof.
  intros Hlen. unfold rank. rewrite length_take, Nat.min_l by done.
  change (Z.ltb 10 (Z.of_nat 10)) with false. cbv iota.
  destruct (Z.ltb_spec 10 (Z.of_nat (length l))).
  - by rewrite splice_prefix.
  - by rewrite take_ge by lia.
Qed.

(** X2. The records after the tenth never influence the answer: two
    collections with the same first ten records get the same response. *)
Theorem index_depends_on_first_ten req s1 s2 :
  rejects s1 Find = None → rejects s2 Find = None →
  (10 ≤ length (docs s1))%nat →
  take 10 (docs s1) = take 10 (docs s2) →
  (serve GET Scorelists req s1).2 = (serve GET Scorelists req s2).2.
Proof.
  intros H1 H2 Hlen Htake.
  assert (10 ≤ length (docs s2))%nat as Hlen2.
  { apply (f_equal length) in Htake. rewrite !length_take in Htake. lia. }
  rewrite !index_outcome, H1, H2. simpl.
  rewrite (rank_first_ten (toObject <$> docs s1)) by (by rewrite length_fmap).
  rewrite (rank_first_ten (toObject <$> docs s2)) by (by rewrite length_fmap).
  by rewrite <- !fmap_take, Htake.
Qed.

Lemma index_depends_on_first_ten_witness :
  (serve GET Scorelists anonymous (healthy eleven)).2
    = (serve GET Scorelists anonymous (healthy (take 10 eleven))).2.
Proof.
  apply (index_depends_on_first_ten anonymous (healthy eleven) (healthy (take 10 eleven)));
    [reflexivity | reflexivity | simpl; lia | reflexivity].
Defined.

Lemma sort_insert_keeps_ties (n : Z) x (l : list pojo) :
  filter (λ o, score (source o) = n) (sort_insert by_score x l)
    = filter (λ o, score (source o) = n) (x :: l).
Proof.
  induction l as [|y ys IH]; simpl; [done|].
  destruct (Z.leb_spec (by_score x y) 0) as [Hle|Hgt]; [done|].
  unfold by_score in Hgt.
  rewrite (filter_cons _ y), IH, !(filter_cons _ x), (filter_cons _ y).
  repeat case_decide; try done; lia.
Qed.

Lemma sort_keeps_ties (n : Z) (l : list pojo) :
  filter (λ o, score (source o) = n) (sort by_score l)
    = filter (λ o, score (source o) = n) l.
Proof.
  induction l as [|x xs IH]; [done|].
  simpl. fold (sort by_score xs).
  by rewrite sort_insert_keeps_ties, !filter_cons, IH.
Qed.

Lemma filter_sources (n : Z) (l : list pojo) :
  filter (λ d, score d = n) (source <$> l)
    = source <$> filter (λ o, score (source o) = n) l.
Proof.
  induction l as [|x xs IH]; [done|].
  csimpl. rewrite !filter_cons, IH. simpl. by case_decide.
Qed.

(** X3. Records with the same score stay in store-return order: for every
    score, the records of the leaderboard that have it are those of the
    first ten that have it, in the same order. *)
Theorem index_ties_keep_store_order req s s' lb (n : Z) :
  serve GET Scorelists req s = (s', Responded 200 (Many lb)) →
  filter (λ d, score d = n) (source <$> lb)
    = filter (λ d, score d = n) (take 10 (docs s)).
Proof.
  intros Hrun.
  destruct (index_leaderboard_inv _ _ _ _ Hrun) as (Hfind & Hlen & ->).
  destruct (index_long req s Hfind Hlen) as (lb' & Hrun' & _ & _ & Hsrc).
  rewrite Hrun in Hrun'. simplify_eq.
  rewrite Hsrc, filter_sources, sort_keeps_ties, <- filter_sources.
  by rewrite sources_of_objects.
Qed.

Lemma index_ties_keep_store_order_witness :
  ∃ lb, (serve GET Scorelists anonymous (healthy tied)).2 = Responded 200 (Many lb) ∧
        _id <$> filter (λ d, score d = 2) (source <$> lb) = [0; 3; 6; 9]%nat.
Proof.
  eexists. split; [vm_compute; reflexivity|].
  erewrite (index_ties_keep_store_order anonymous (healthy tied));
    [|vm_compute; reflexivity].
  vm_compute. reflexivity.
Defined.

(** ** What the routes never do *)

(** X4. The two GET routes only read: whatever the request, the collection
    is unchanged and no write call is issued; INDEX issues exactly one
    [find]. *)
Theorem reads_never_write req s :
  docs (serve GET Scorelists req s).1 = docs s ∧
  calls (serve GET Scorelists req s).1 = calls s ++ [Find] ∧
  docs (serve GET ScorelistsId req s).1 = docs s ∧
  writes (serve GET ScorelistsId req s).1 = writes s.
Proof.
  rewrite index_outcome. split; [done|]. split; [done|].
  destruct (authenticate req s) as [u|] eqn:Hu.
  - rewrite (show_outcome _ _ _ Hu). split; [done|]. by apply writes_issue_read.
  - by rewrite serve_show, (requireToken_refuses _ _ _ Hu).
Qed.

Lemma mutation_cases m req s :
  m = PATCH ∨ m = DELETE →
  (docs (serve m ScorelistsId req s).1 = docs s ∧
   writes (serve m ScorelistsId req s).1 = writes s) ∨
  ∃ u d, authenticate req s = Some u ∧
         find_doc (params_id req) (docs s) = Some d ∧
         owner d = user_id u.
Proof.
  intros Hm.
  destruct (authenticate req s) as [u|] eqn:Hu.
  2:{ left. destruct Hm as [-> | ->].
      - by rewrite serve_update, (requireToken_refuses _ _ _ Hu).
      - by rewrite serve_destroy, (requireToken_refuses _ _ _ Hu). }
  destruct (handle404 (find_doc (params_id req) (docs s))) as [d|e] eqn:H404.
  2:{ left. destruct Hm as [-> | ->].
      - rewrite (update_outcome _ _ _ Hu), H404.
        destruct (body req !! "scorelist"); [|done]. cbv zeta.
        destruct (rejects s (FindById _)); (split; [done | by apply writes_issue_read]).
      - rewrite (destroy_outcome _ _ _ Hu), H404. cbv zeta.
        destruct (rejects s (FindById _)); (split; [done | by apply writes_issue_read]). }
  destruct (requireOwnership (with_user u req) d) as [r|e] eqn:Hown.
  - right. exists u, d. split; [done|]. split.
    + by apply handle404_fulfilled.
    + by eapply requireOwnership_fulfilled.
  - left. destruct Hm as [-> | ->].
    + rewrite (update_outcome _ _ _ Hu), H404, Hown.
      destruct (body req !! "scorelist"); [|done]. cbv zeta.
      destruct (rejects s (FindById _)); (split; [done | by apply writes_issue_read]).
    + rewrite (destroy_outcome _ _ _ Hu), H404, Hown. cbv zeta.
      destruct (rejects s (FindById _)); (split; [done | by apply writes_issue_read]).
Qed.

(** X5. Only the owner writes: when an update or a delete changes the
    collection or issues a write call, the caller carries a valid token, the
    addressed record exists and the caller is its owner. *)
Theorem writes_are_by_owner m req s :
  m = PATCH ∨ m = DELETE →
  docs (serve m ScorelistsId req s).1 ≠ docs s ∨
  writes (serve m ScorelistsId req s).1 ≠ writes s →
  ∃ u d, authenticate req s = Some u ∧
         find_doc (params_id req) (docs s) = Some d ∧
         owner d = user_id u.
Proof.
  intros Hm Hchanged.
  destruct (mutation_cases m req s Hm) as [[Hdocs Hwrites]|Hok]; [|exact Hok].
  destruct Hchanged; contradiction.
Qed.

Lemma writes_are_by_owner_witness :
  ∃ u d, authenticate (signed "token-ann" 0 rescored) (healthy three) = Some u ∧
         find_doc 0 three = Some d ∧ owner d = user_id u.
Proof.
  apply (writes_are_by_owner PATCH (signed "token-ann" 0 rescored) (healthy three)).
  - by left.
  - left. vm_compute. discriminate.
Defined.

(** ** What reaches the store *)

(** X7. UPDATE and DESTROY address the requested record only: the calls
    they issue are a [findById] of [req.params.id], followed at most by the
    one write of their kind on that same id. *)
Theorem mutations_address_requested_id req s :
  (∃ issued,
     calls (serve PATCH ScorelistsId req s).1 = calls s ++ issued ∧
     ∀ c, c ∈ issued →
          c = FindById (params_id req) ∨ ∃ patch, c = UpdateOne (params_id req) patch) ∧
  (∃ issued,
     calls (serve DELETE ScorelistsId req s).1 = calls s ++ issued ∧
     ∀ c, c ∈ issued →
          c = FindById (params_id req) ∨ c = DeleteOne (params_id req)).
Proof.
  assert (∀ P : store_call → Prop, ∀ c, c ∈ [] → P c) as Hnil.
  { intros P c Hc. by apply elem_of_nil in Hc. }
  assert (∀ P : store_call → Prop, P (FindById (params_id req)) →
          ∀ c, c ∈ [FindById (params_id req)] → P c) as Hone.
  { intros P HP c Hc. by apply list_elem_of_singleton in Hc as ->. }
  assert (∀ (P : store_call → Prop) w, P (FindById (params_id req)) → P w →
          ∀ c, c ∈ [FindById (params_id req); w] → P c) as Htwo.
  { intros P w HP Hw c Hc. apply elem_of_cons in Hc as [->|Hc]; [done|].
    by apply list_elem_of_singleton in Hc as ->. }
  destruct (authenticate req s) as [u|] eqn:Hu.
  2:{ rewrite serve_update, serve_destroy, !(requireToken_refuses _ _ _ Hu).
      split; exists []; (split; [by rewrite app_nil_r | apply Hnil]). }
  rewrite (update_outcome _ _ _ Hu), (destroy_outcome _ _ _ Hu). cbv zeta.
  destruct (rejects s (FindById _)).
  { split.
    - destruct (body req !! "scorelist").
      + exists [FindById (params_id req)]. split; [done|]. apply Hone. by left.
      + exists []. split; [by rewrite app_nil_r | apply Hnil].
    - exists [FindById (params_id req)]. split; [done|]. apply Hone. by left. }
  destruct (handle404 _) as [d|e] eqn:H404.
  2:{ split.
      - destruct (body req !! "scorelist").
        + exists [FindById (params_id req)]. split; [done|]. apply Hone. by left.
        + exists []. split; [by rewrite app_nil_r | apply Hnil].
      - exists [FindById (params_id req)]. split; [done|]. apply Hone. by left. }
  apply handle404_fulfilled, find_doc_id in H404. rewrite H404.
  destruct (requireOwnership _ d) as [[]|e].
  2:{ split.
      - destruct (body req !! "scorelist").
        + exists [FindById (params_id req)]. split; [done|]. apply Hone. by left.
        + exists []. split; [by rewrite app_nil_r | apply Hnil].
      - exists [FindById (params_id req)]. split; [done|]. apply Hone. by left. }
  split.
  - destruct (body req !! "scorelist") as [p|].
    + eexists [FindById (params_id req); UpdateOne (params_id req) _]. split.
      * destruct (rejects s (UpdateOne _ _)); simpl; by rewrite <- app_assoc.
      * apply Htwo; [by left|]. right. by eexists.
    + exists []. split; [by rewrite app_nil_r | apply Hnil].
  - exists [FindById (params_id req); DeleteOne (params_id req)]. split.
    + destruct (rejects s (DeleteOne _)); simpl; by rewrite <- app_assoc.
    + apply Htwo; [by left | by right].
Qed.

(** ** How the routes compose *)

(** X8. What CREATE answers is what SHOW then returns: once a record is
    created under an id that was not in use, any authenticated caller who
    fetches that id gets the record of the 201 response. *)
Theorem create_then_show req req' s u u' p d :
  authenticate req s = Some u →
  body req !! "scorelist" = Some p →
  rejects s (Create (<["owner" := JStr (user_id u)]> p)) = None →
  cast (next_id s) (<["owner" := JStr (user_id u)]> p) = Some d →
  find_doc (next_id s) (docs s) = None →
  authenticate req' s = Some u' →
  params_id req' = _id d →
  rejects s (FindById (_id d)) = None →
  (serve POST Scorelists req s).2 = Responded 201 (One (toObject d)) ∧
  (serve GET ScorelistsId req' (serve POST Scorelists req s).1).2
    = Responded 200 (One (toObject d)).
Proof.
  intros Hu Hp Hrej Hcast Hfresh Hu' Hid Hfind.
  rewrite (create_outcome _ _ _ Hu), Hp. cbv zeta. rewrite Hrej, Hcast.
  split; [done|]. simpl.
  assert (_id d = next_id s) as Hd.
  { unfold cast in Hcast. destruct (_ !! "owner") as [[]|]; try done.
    destruct (_ !! "score") as [[]|]; by simplify_eq. }
  erewrite show_outcome by exact Hu'. simpl.
  rewrite Hid, Hfind, Hd, (find_doc_snoc _ _ _ Hfresh), Hd, Nat.eqb_refl. done.
Qed.

Lemma create_then_show_witness :
  let d := {| _id := 3; owner := "ann"; score := 5; fields := {[ "title" := JStr "x" ]} |} in
  (serve POST Scorelists (signed "token-ann" 0 forged) (healthy three)).2
    = Responded 201 (One (toObject d)) ∧
  (serve GET ScorelistsId (signed "token-bob" 3 ∅)
     (serve POST Scorelists (signed "token-ann" 0 forged) (healthy three)).1).2
    = Responded 200 (One (toObject d)).
Proof.
  apply (create_then_show (signed "token-ann" 0 forged) (signed "token-bob" 3 ∅)
           (healthy three) (User "ann") (User "bob")
           {[ "owner" := JStr "bob"; "score" := JNum 5; "title" := JStr "x" ]});
    vm_compute; reflexivity.
Defined.

Lemma rejections_surface_witness :
  (serve POST Scorelists (signed "token-ann" 0 forged) (failing_create three)).2
    = PassedToNext (StoreError "connection lost").
Proof.
  destruct (rejections_surface (signed "token-ann" 0 forged) (failing_create three)
              (User "ann") (StoreError "connection lost"))
    as (_ & _ & Hcreate & _); [reflexivity|].
  apply (Hcreate {[ "owner" := JStr "bob"; "score" := JNum 5; "title" := JStr "x" ]});
    vm_compute; reflexivity.
Defined.
